(** * elka.h: a 16 x 24 one-byte-per-pixel bitmap embedded as a C++ array

    The header declares three dimension macros, a derived length macro and
    one global array of [uint8_t] sized by the length macro, initialised by
    a brace-enclosed list of hexadecimal literals.  This file embeds those
    declarations, the C++ rules that turn the declaration into an array
    object, and the built-in subscript used to read it. *)

From Stdlib Require Import String.
From Stdlib Require Import ZArith List Bool Lia.
Import ListNotations.
Local Open Scope Z_scope.

Module Elka.

(** ** Dimension macros (elka.h, lines 5-8) *)

Definition IMAGE_HEIGHT : Z := 24.
Definition IMAGE_WIDTH : Z := 16.
Definition PIXEL_SIZE : Z := 1.

(** The macro body is the unparenthesised token sequence
    [IMAGE_WIDTH * IMAGE_HEIGHT * PIXEL_SIZE]; its only use is as the array
    bound of [image], where it stands alone as a constant expression. *)
Definition IMAGE_LENGTH : Z := IMAGE_WIDTH * IMAGE_HEIGHT * PIXEL_SIZE.

(** ** The element type *)

Definition UINT8_MAX : Z := 255.

(** [fits_uint8 z]: the [int] constant [z] is representable as [uint8_t]. *)
Definition fits_uint8 (z : Z) : bool := (0 <=? z) && (z <=? UINT8_MAX).

(** ** The initialiser of [image] (elka.h, lines 10-33)

    The initialiser clauses in source order, one source line per row. *)

Definition image_initializer : list Z := [
0xff; 0xff; 0xff; 0xff; 0xff; 0xff; 0xff; 0x95; 0xfe; 0xff; 0xff; 0xff; 0xff; 0xff; 0xff; 0xff;
0xff; 0xff; 0xff; 0xff; 0xff; 0xff; 0x8f; 0x92; 0x92; 0xf9; 0xff; 0xff; 0xff; 0xff; 0xff; 0xff;
0xff; 0xff; 0xff; 0xff; 0xff; 0xfa; 0x91; 0x9c; 0x93; 0x92; 0xfe; 0xff; 0xff; 0xff; 0xff; 0xff;
0xff; 0xff; 0xff; 0xff; 0xfd; 0x99; 0x93; 0x95; 0x97; 0x94; 0x94; 0xfd; 0xfd; 0xff; 0xff; 0xff;
0xff; 0xff; 0xff; 0xfe; 0x91; 0x94; 0x94; 0x93; 0x98; 0x94; 0x9a; 0x99; 0xfe; 0xff; 0xff; 0xff;
0xff; 0xff; 0xff; 0xff; 0xff; 0xfd; 0x99; 0x91; 0x90; 0x98; 0xfe; 0xfe; 0xfe; 0xff; 0xff; 0xff;
0xff; 0xff; 0xff; 0xff; 0xee; 0x9b; 0x9c; 0x94; 0x90; 0x99; 0x9a; 0xfd; 0xff; 0xff; 0xff; 0xff;
0xff; 0xff; 0xff; 0x93; 0x93; 0x9a; 0x9a; 0x94; 0x94; 0x9a; 0x8f; 0x90; 0xfc; 0xff; 0xff; 0xff;
0xff; 0xff; 0xfb; 0x98; 0x91; 0x93; 0x9a; 0x8f; 0x9d; 0x97; 0x94; 0x8f; 0x98; 0xff; 0xff; 0xff;
0xff; 0xff; 0xff; 0xff; 0xfb; 0x93; 0x93; 0x8e; 0x94; 0x98; 0x8e; 0xfb; 0xff; 0xff; 0xff; 0xff;
0xff; 0xff; 0xff; 0xfe; 0x93; 0x98; 0x97; 0x95; 0x96; 0x9c; 0x95; 0x9b; 0xfc; 0xff; 0xff; 0xff;
0xff; 0xff; 0xfe; 0x95; 0x90; 0x96; 0x99; 0x97; 0x95; 0x9c; 0x94; 0x98; 0x90; 0xff; 0xff; 0xff;
0xff; 0xfd; 0x9e; 0x9b; 0x8f; 0x90; 0x9e; 0x9d; 0x97; 0x9c; 0x93; 0x95; 0x98; 0x95; 0xff; 0xff;
0xff; 0xff; 0xff; 0xff; 0xfd; 0x90; 0x98; 0x9c; 0x9c; 0x9c; 0x98; 0xfa; 0xfd; 0xff; 0xff; 0xff;
0xff; 0xff; 0xff; 0xac; 0x98; 0x9c; 0x9c; 0x9c; 0x9c; 0x9c; 0x94; 0x95; 0xfc; 0xff; 0xff; 0xff;
0xff; 0xfe; 0x96; 0x8f; 0x91; 0x99; 0x97; 0x92; 0x99; 0x99; 0x92; 0x96; 0x98; 0xb1; 0xff; 0xff;
0xff; 0x93; 0x98; 0x94; 0x93; 0x98; 0x99; 0x97; 0x99; 0x9c; 0x97; 0x9a; 0x9c; 0x8b; 0x89; 0xff;
0xff; 0xfe; 0xfe; 0xff; 0xfe; 0xfe; 0xfe; 0xfe; 0xfe; 0xfe; 0xfe; 0xfd; 0xfe; 0xff; 0xfe; 0xff;
0xff; 0xff; 0xff; 0xff; 0xff; 0xff; 0xff; 0xa7; 0xa7; 0xff; 0xff; 0xff; 0xff; 0xff; 0xff; 0xff;
0xff; 0xff; 0xff; 0xff; 0xff; 0xff; 0xff; 0x99; 0x99; 0xff; 0xff; 0xff; 0xff; 0xff; 0xff; 0xff;
0xff; 0xff; 0xff; 0xff; 0xff; 0xff; 0xff; 0xb1; 0xa9; 0xff; 0xff; 0xff; 0xff; 0xff; 0xff; 0xff;
0xff; 0xff; 0xff; 0xff; 0xff; 0xff; 0xff; 0xb0; 0xb1; 0xff; 0xff; 0xff; 0xff; 0xff; 0xff; 0xff;
0xff; 0xff; 0xff; 0xff; 0xff; 0xff; 0xff; 0xb6; 0xb1; 0xff; 0xff; 0xff; 0xff; 0xff; 0xff; 0xff;
0xff; 0xff; 0xff; 0xff; 0xff; 0xff; 0xff; 0xb6; 0xb1; 0xff; 0xff; 0xff; 0xff; 0xff; 0xff; 0xff
].

(** ** Array declaration

    [uint8_t a[n] = { c_0, ..., c_(k-1) }] is ill-formed when there are more
    clauses than elements or when a constant clause does not fit the element
    type (a narrowing conversion inside braces); otherwise the array has [n]
    elements, the first [k] taken from the clauses and the rest zero. *)
Definition aggregate_init (n : Z) (clauses : list Z) : option (list Z) :=
  if (Z.of_nat (length clauses) <=? n) && forallb fits_uint8 clauses
  then Some (clauses ++ repeat 0 (Z.to_nat n - length clauses))
  else None.

(** [uint8_t image[IMAGE_LENGTH] = { ... };] (elka.h, lines 9-34).  An
    ill-formed declaration would leave no elements at all. *)
Definition image : list Z :=
  match aggregate_init IMAGE_LENGTH image_initializer with
  | Some a => a
  | None => []
  end.

(** ** Reading

    The state of the program is the content of its one global object. *)
Definition store : Type := list Z.

(** [read s i] is the built-in subscript [image[i]] used as an rvalue in
    state [s]: it yields the element and the state after the read.  An index
    outside the array has undefined behaviour, rendered as [None]. *)
Definition read (s : store) (i : Z) : option (Z * store) :=
  if (0 <=? i) && (i <? Z.of_nat (length s))
  then match nth_error s (Z.to_nat i) with
       | Some v => Some (v, s)
       | None => None
       end
  else None.

(** [update s n v] is [s] with its element [n] replaced by [v]. *)
Fixpoint update (s : list Z) (n : nat) (v : Z) : list Z :=
  match s, n with
  | [], _ => []
  | _ :: s', O => v :: s'
  | x :: s', S n' => x :: update s' n' v
  end.

(** [write s i v] is the assignment [image[i] = v] in state [s].  The
    header declares [image] without [const], so the subscript is a
    modifiable lvalue and the assignment is accepted; the [int] value is
    converted to [uint8_t], that is reduced modulo 256.  An index outside
    the array has undefined behaviour, rendered as [None]. *)
Definition write (s : store) (i v : Z) : option store :=
  if (0 <=? i) && (i <? Z.of_nat (length s))
  then Some (update s (Z.to_nat i) (v mod 256))
  else None.

(** The accesses a user of the header can make to [image]. *)
Inductive access : Type :=
| Read (i : Z)
| Write (i v : Z).

Definition access_index (a : access) : Z :=
  match a with
  | Read i => i
  | Write i _ => i
  end.

Definition is_read (a : access) : bool :=
  match a with
  | Read _ => true
  | Write _ _ => false
  end.

Definition writes_to (i : Z) (a : access) : bool :=
  match a with
  | Read _ => false
  | Write j _ => j =? i
  end.

(** [run s acs] performs the accesses [acs] in order, threading the state,
    and collects the values read; it fails at the first undefined access. *)
Fixpoint run (s : store) (acs : list access) : option (list Z * store) :=
  match acs with
  | [] => Some ([], s)
  | Read j :: acs' =>
      match read s j with
      | Some (v, s1) =>
          match run s1 acs' with
          | Some (vs, s2) => Some (v :: vs, s2)
          | None => None
          end
      | None => None
      end
  | Write j w :: acs' =>
      match write s j w with
      | Some s1 => run s1 acs'
      | None => None
      end
  end.

(** Modelled from the spec: the header has no addressing helper; the
    specification addresses the buffer in row-major order by the flat index
    [row * width + col]. *)
Definition flat_index (row col : Z) : Z := row * IMAGE_WIDTH + col.

(** The [r]-th run of [IMAGE_WIDTH] consecutive elements of a state. *)
Definition image_row (s : store) (r : Z) : list Z :=
  firstn (Z.to_nat IMAGE_WIDTH) (skipn (Z.to_nat (r * IMAGE_WIDTH)) s).

(** [edge_is_ff r]: both ends of row [r] read as [0xff]. *)
Definition edge_is_ff (r : Z) : bool :=
  match read image (16 * r), read image (16 * r + 15) with
  | Some (a, _), Some (b, _) => (a =? 0xff) && (b =? 0xff)
  | _, _ => false
  end.

(** * The header as the preprocessor sees it

    The claims above use the values of the macros.  The header itself is a
    sequence of directives around one declaration, and a macro body is a
    sequence of tokens that replaces the macro's name where it is used. *)

Inductive token : Type :=
| TNum (n : Z)
| TId (name : string)
| TStar
| TSlash
| TPercent
| TPlus
| TMinus.

(** The lines of a header: the directives elka.h uses and the definition
    of an array, written with an element type name, a declared name, a
    bound and brace-enclosed clauses. *)
Inductive line : Type :=
| Ifndef (name : string)
| Define (name : string) (body : list token)
| Include (header : string)
| ArrayDef (elt name : string) (bound : list token) (clauses : list Z)
| Endif.

(** elka.h, lines 1-35, in source order. *)
Definition elka_h : list line := [
  Ifndef "IMAGE";
  Define "IMAGE" [];
  Include "cstdint";
  Define "IMAGE_HEIGHT" [TNum 24];
  Define "IMAGE_WIDTH" [TNum 16];
  Define "PIXEL_SIZE" [TNum 1];
  Define "IMAGE_LENGTH"
    [TId "IMAGE_WIDTH"; TStar; TId "IMAGE_HEIGHT"; TStar; TId "PIXEL_SIZE"];
  ArrayDef "uint8_t" "image" [TId "IMAGE_LENGTH"] image_initializer;
  Endif
].

(** ** Macro replacement *)

Definition macro_table : Type := list (string * list token).

Fixpoint lookup {A : Type} (x : string) (m : list (string * A)) : option A :=
  match m with
  | [] => None
  | (y, a) :: m' => if String.eqb x y then Some a else lookup x m'
  end.

(** [expand fuel m hide ts] replaces every macro name in [ts] by its body
    and rescans the body, where a name under replacement ([hide]) is not
    replaced again.  Each nested replacement hides one more name, so the
    number of macros bounds the depth. *)
Fixpoint expand (fuel : nat) (m : macro_table) (hide : list string)
    (ts : list token) : list token :=
  match fuel with
  | O => ts
  | S fuel' =>
      flat_map
        (fun t =>
           match t with
           | TId x =>
               if existsb (String.eqb x) hide then [t]
               else match lookup x m with
                    | Some body => expand fuel' m (x :: hide) body
                    | None => [t]
                    end
           | _ => [t]
           end)
        ts
  end.

Definition preprocess (m : macro_table) (ts : list token) : list token :=
  expand (S (length m)) m [] ts.

(** ** Constant expressions of type [int]

    The fragment the header needs: non-negative literals joined by the
    binary operators, multiplicative operators binding tighter than
    additive ones, both associating to the left.  [int_max] is the
    implementation's [INT_MAX]; a result outside [int], a division by zero
    and anything that is not such an expression give [None]. *)

Definition checked (int_max z : Z) : option Z :=
  if (- int_max - 1 <=? z) && (z <=? int_max) then Some z else None.

Definition is_int_literal (int_max n : Z) : bool :=
  (0 <=? n) && (n <=? int_max).

(** [eval_rest int_max sum neg term ts]: [sum] is the value of the additive
    operands already complete, [term] the multiplicative operand being
    read, to be subtracted from [sum] when [neg] and added otherwise. *)
Fixpoint eval_rest (int_max sum : Z) (neg : bool) (term : Z)
    (ts : list token) : option Z :=
  match ts with
  | [] => checked int_max (if neg then sum - term else sum + term)
  | TStar :: TNum n :: ts' =>
      if is_int_literal int_max n then
        match checked int_max (term * n) with
        | Some t => eval_rest int_max sum neg t ts'
        | None => None
        end
      else None
  | TSlash :: TNum n :: ts' =>
      if is_int_literal int_max n && negb (n =? 0) then
        match checked int_max (Z.quot term n) with
        | Some t => eval_rest int_max sum neg t ts'
        | None => None
        end
      else None
  | TPercent :: TNum n :: ts' =>
      if is_int_literal int_max n && negb (n =? 0) then
        match checked int_max (Z.quot term n) with
        | Some _ => eval_rest int_max sum neg (Z.rem term n) ts'
        | None => None
        end
      else None
  | TPlus :: TNum n :: ts' =>
      if is_int_literal int_max n then
        match checked int_max (if neg then sum - term else sum + term) with
        | Some s => eval_rest int_max s false n ts'
        | None => None
        end
      else None
  | TMinus :: TNum n :: ts' =>
      if is_int_literal int_max n then
        match checked int_max (if neg then sum - term else sum + term) with
        | Some s => eval_rest int_max s true n ts'
        | None => None
        end
      else None
  | _ => None
  end.

Definition eval (int_max : Z) (ts : list token) : option Z :=
  match ts with
  | TNum n :: ts' =>
      if is_int_literal int_max n then eval_rest int_max 0 false n ts'
      else None
  | _ => None
  end.

(** ** Processing a header into a translation unit *)

Definition token_eqb (a b : token) : bool :=
  match a, b with
  | TNum n, TNum n' => n =? n'
  | TId x, TId x' => String.eqb x x'
  | TStar, TStar | TSlash, TSlash | TPercent, TPercent
  | TPlus, TPlus | TMinus, TMinus => true
  | _, _ => false
  end.

Fixpoint tokens_eqb (a b : list token) : bool :=
  match a, b with
  | [], [] => true
  | t :: a', t' :: b' => token_eqb t t' && tokens_eqb a' b'
  | _, _ => false
  end.

(** What a translation unit has accumulated: the macros defined, the
    system headers requested (latest first) and the objects defined. *)
Record tu : Type := {
  tu_macros : macro_table;
  tu_headers : list string;
  tu_objects : list (string * list Z)
}.

Definition empty_tu : tu :=
  {| tu_macros := []; tu_headers := []; tu_objects := [] |}.

(** The open conditional groups, innermost first; the text is kept when
    every one of them was entered. *)
Definition active (conds : list bool) : bool := forallb (fun b => b) conds.

(** One line.  Inside a skipped group only the nesting is tracked.  A macro
    may be defined again only with the same body.  A definition line is
    macro-replaced as a whole, element type, declared name and bound alike;
    the fragment covered is the one where the element type is then
    [uint8_t] and the declarator a single name, anything else gives
    [None].  An object may be defined once, and an array bound is a
    positive constant expression. *)
Definition step (int_max : Z) (l : line) (s : tu * list bool)
    : option (tu * list bool) :=
  let (u, conds) := s in
  match l with
  | Ifndef x =>
      Some (u, match lookup x (tu_macros u) with
               | None => true
               | Some _ => false
               end :: conds)
  | Endif =>
      match conds with
      | [] => None
      | _ :: conds' => Some (u, conds')
      end
  | Define x body =>
      if active conds then
        match lookup x (tu_macros u) with
        | None =>
            Some ({| tu_macros := (x, body) :: tu_macros u;
                     tu_headers := tu_headers u;
                     tu_objects := tu_objects u |}, conds)
        | Some old => if tokens_eqb old body then Some (u, conds) else None
        end
      else Some (u, conds)
  | Include h =>
      if active conds then
        Some ({| tu_macros := tu_macros u;
                 tu_headers := h :: tu_headers u;
                 tu_objects := tu_objects u |}, conds)
      else Some (u, conds)
  | ArrayDef elt x bound clauses =>
      if active conds then
        match preprocess (tu_macros u) [TId elt],
              preprocess (tu_macros u) [TId x] with
        | [TId elt'], [TId x'] =>
            if String.eqb elt' "uint8_t" then
              match lookup x' (tu_objects u) with
              | Some _ => None
              | None =>
                  match eval int_max (preprocess (tu_macros u) bound) with
                  | Some n =>
                      if 0 <? n then
                        match aggregate_init n clauses with
                        | Some a =>
                            Some ({| tu_macros := tu_macros u;
                                     tu_headers := tu_headers u;
                                     tu_objects := (x', a) :: tu_objects u |},
                                  conds)
                        | None => None
                        end
                      else None
                  | None => None
                  end
              end
            else None
        | _, _ => None
        end
      else Some (u, conds)
  end.

Fixpoint run_lines (int_max : Z) (ls : list line) (s : tu * list bool)
    : option (tu * list bool) :=
  match ls with
  | [] => Some s
  | l :: ls' =>
      match step int_max l s with
      | Some s' => run_lines int_max ls' s'
      | None => None
      end
  end.

(** [include_header int_max h u]: the text of [h] is processed in [u]; a
    conditional group left open at the end of [h] is an error. *)
Definition include_header (int_max : Z) (h : list line) (u : tu) : option tu :=
  match run_lines int_max h (u, []) with
  | Some (u', []) => Some u'
  | _ => None
  end.

(** The macros in force after elka.h was included in an empty translation
    unit.  The least [INT_MAX] the language allows is enough to get them. *)
Definition elka_macros : macro_table :=
  match include_header 32767 elka_h empty_tu with
  | Some u => tu_macros u
  | None => []
  end.

(** * Properties of array declaration *)

Lemma fits_uint8_range (z : Z) : fits_uint8 z = true <-> 0 <= z <= UINT8_MAX.
Proof.
  unfold fits_uint8. rewrite andb_true_iff, Z.leb_le, Z.leb_le. tauto.
Qed.

Lemma aggregate_init_length (n : Z) (clauses a : list Z) :
  aggregate_init n clauses = Some a -> Z.of_nat (length a) = n.
Proof.
  unfold aggregate_init.
  destruct (_ && _) eqn:Hok; [|discriminate].
  intros [= <-]. apply andb_true_iff in Hok as [Hlen _].
  apply Z.leb_le in Hlen.
  rewrite length_app, repeat_length. lia.
Qed.

Lemma aggregate_init_fits (n : Z) (clauses a : list Z) :
  aggregate_init n clauses = Some a ->
  Forall (fun v => 0 <= v <= UINT8_MAX) a.
Proof.
  unfold aggregate_init.
  destruct (_ && _) eqn:Hok; [|discriminate].
  intros [= <-]. apply andb_true_iff in Hok as [_ Hfit].
  apply Forall_app; split.
  - apply Forall_forall. intros v Hv.
    apply fits_uint8_range. revert v Hv. now apply forallb_forall.
  - apply Forall_forall. intros v Hv.
    apply repeat_spec in Hv. subst v. unfold UINT8_MAX. lia.
Qed.

Lemma IMAGE_LENGTH_eq : IMAGE_LENGTH = 384.
Proof. reflexivity. Qed.

(** The declaration of [image] is well-formed. *)
Lemma image_declared :
  aggregate_init IMAGE_LENGTH image_initializer = Some image.
Proof. reflexivity. Qed.

(** Every element has its own initialiser clause: nothing is zero-filled. *)
Lemma image_eq_initializer : image = image_initializer.
Proof. reflexivity. Qed.

Lemma image_length_Z : Z.of_nat (length image) = IMAGE_LENGTH.
Proof. exact (aggregate_init_length _ _ _ image_declared). Qed.

Lemma image_fits : Forall (fun v => 0 <= v <= UINT8_MAX) image.
Proof. exact (aggregate_init_fits _ _ _ image_declared). Qed.

(** * Properties of reading *)

Section Reads.

Variable s : store.

Lemma read_in_range (i : Z) :
  0 <= i < Z.of_nat (length s) ->
  exists v, read s i = Some (v, s) /\ nth_error s (Z.to_nat i) = Some v.
Proof.
  intros Hi. unfold read.
  assert (Hb : (0 <=? i) && (i <? Z.of_nat (length s)) = true).
  { apply andb_true_iff. split; [apply Z.leb_le | apply Z.ltb_lt]; lia. }
  rewrite Hb.
  destruct (nth_error s (Z.to_nat i)) as [v|] eqn:Hnth.
  - exists v. split; reflexivity.
  - apply nth_error_None in Hnth. lia.
Qed.

Lemma read_inv (i v : Z) (s' : store) :
  read s i = Some (v, s') ->
  s' = s /\ nth_error s (Z.to_nat i) = Some v /\
  0 <= i < Z.of_nat (length s).
Proof.
  unfold read.
  destruct (_ && _) eqn:Hb; [|discriminate].
  apply andb_true_iff in Hb as [H0 H1].
  apply Z.leb_le in H0. apply Z.ltb_lt in H1.
  destruct (nth_error s (Z.to_nat i)) as [w|]; [|discriminate].
  intros [= -> <-]. auto.
Qed.

Lemma image_row_nth (r c : Z) :
  0 <= r -> 0 <= c < IMAGE_WIDTH ->
  nth_error (image_row s r) (Z.to_nat c) =
  nth_error s (Z.to_nat (flat_index r c)).
Proof.
  intros Hr Hc. unfold image_row, flat_index.
  rewrite nth_error_firstn.
  assert (Hlt : (Z.to_nat c <? Z.to_nat IMAGE_WIDTH)%nat = true)
    by (apply Nat.ltb_lt; lia).
  rewrite Hlt, nth_error_skipn. f_equal.
  unfold IMAGE_WIDTH in *. lia.
Qed.

End Reads.

Lemma update_length (s : list Z) (v : Z) :
  forall n, length (update s n v) = length s.
Proof.
  induction s as [|x s IH]; intros [|n]; cbn [update length];
    try reflexivity.
  now rewrite IH.
Qed.

Lemma nth_error_update_same (s : list Z) (v : Z) :
  forall n, (n < length s)%nat -> nth_error (update s n v) n = Some v.
Proof.
  induction s as [|x s IH]; intros [|n] Hn; cbn [length] in Hn;
    cbn [update nth_error]; try lia; try reflexivity.
  apply IH. lia.
Qed.

Lemma nth_error_update_other (s : list Z) (v : Z) :
  forall n m, n <> m -> nth_error (update s n v) m = nth_error s m.
Proof.
  induction s as [|x s IH]; intros [|n] [|m] Hnm; cbn [update nth_error];
    try reflexivity; try congruence.
  apply IH. congruence.
Qed.

Lemma write_in_range (s : store) (i v : Z) :
  0 <= i < Z.of_nat (length s) ->
  write s i v = Some (update s (Z.to_nat i) (v mod 256)).
Proof.
  intros Hi. unfold write.
  assert (Hb : (0 <=? i) && (i <? Z.of_nat (length s)) = true).
  { apply andb_true_iff. split; [apply Z.leb_le | apply Z.ltb_lt]; lia. }
  now rewrite Hb.
Qed.

Lemma read_at (s : store) (i v : Z) :
  0 <= i < Z.of_nat (length s) ->
  nth_error s (Z.to_nat i) = Some v ->
  read s i = Some (v, s).
Proof.
  intros Hi Hnth. destruct (read_in_range s i Hi) as [w [Hread Hw]].
  congruence.
Qed.

(** Accesses that stay in range and do not write to [i] are all defined,
    keep the number of elements and keep element [i]; reads alone keep the
    whole state. *)
Lemma run_frame (i v : Z) (acs : list access) :
  forall s,
    0 <= i ->
    nth_error s (Z.to_nat i) = Some v ->
    Forall (fun a => 0 <= access_index a < Z.of_nat (length s)) acs ->
    Forall (fun a => writes_to i a = false) acs ->
    exists vs s',
      run s acs = Some (vs, s') /\
      length s' = length s /\
      nth_error s' (Z.to_nat i) = Some v /\
      (forallb is_read acs = true -> s' = s).
Proof.
  induction acs as [|a acs IH]; intros s Hi Hnth Hrange Hframe.
  - exists [], s. cbn [run]. auto.
  - inversion Hrange as [|? ? Ha Hrange']; subst.
    inversion Hframe as [|? ? Hw Hframe']; subst.
    destruct a as [j|j w]; cbn [access_index writes_to] in Ha, Hw.
    + destruct (read_in_range s j Ha) as [x [Hread _]].
      destruct (IH s Hi Hnth Hrange' Hframe')
        as (vs & s' & Hrun & Hlen & Hkeep & Hsame).
      exists (x :: vs), s'. cbn [run forallb is_read andb].
      rewrite Hread, Hrun. auto.
    + apply Z.eqb_neq in Hw.
      pose (s1 := update s (Z.to_nat j) (w mod 256)).
      assert (Hlen1 : length s1 = length s) by apply update_length.
      assert (Hnth1 : nth_error s1 (Z.to_nat i) = Some v).
      { unfold s1. rewrite nth_error_update_other by lia. exact Hnth. }
      assert (Hrange1 :
        Forall (fun a => 0 <= access_index a < Z.of_nat (length s1)) acs)
        by (rewrite Hlen1; exact Hrange').
      destruct (IH s1 Hi Hnth1 Hrange1 Hframe')
        as (vs & s' & Hrun & Hlen & Hkeep & _).
      exists vs, s'. cbn [run forallb is_read andb].
      rewrite (write_in_range s j w Ha). fold s1. rewrite Hrun.
      repeat split; [congruence | exact Hkeep | discriminate].
Qed.

Lemma flat_index_in_range (row col : Z) :
  0 <= row < IMAGE_HEIGHT -> 0 <= col < IMAGE_WIDTH ->
  0 <= flat_index row col < IMAGE_LENGTH.
Proof.
  unfold flat_index, IMAGE_LENGTH, IMAGE_HEIGHT, IMAGE_WIDTH, PIXEL_SIZE. lia.
Qed.

Lemma flat_index_div_mod (i : Z) :
  0 <= i < IMAGE_LENGTH ->
  0 <= i / IMAGE_WIDTH < IMAGE_HEIGHT /\
  0 <= i mod IMAGE_WIDTH < IMAGE_WIDTH /\
  i = flat_index (i / IMAGE_WIDTH) (i mod IMAGE_WIDTH).
Proof.
  unfold flat_index, IMAGE_LENGTH, IMAGE_HEIGHT, IMAGE_WIDTH, PIXEL_SIZE.
  intros Hi.
  pose proof (Z.div_mod i 16 ltac:(lia)) as Hdm.
  pose proof (Z.mod_pos_bound i 16 ltac:(lia)) as Hm.
  lia.
Qed.

(** A boolean test that holds on the first [n] naturals holds on every
    integer of [0, n). *)
Lemma forallb_below (P : Z -> bool) (n : nat) :
  forallb P (map Z.of_nat (seq 0 n)) = true ->
  forall z, 0 <= z < Z.of_nat n -> P z = true.
Proof.
  intros Hall z Hz.
  rewrite forallb_forall in Hall. apply Hall.
  apply in_map_iff. exists (Z.to_nat z). split; [lia|].
  apply in_seq. lia.
Qed.

(** * The dimension constants and the size of the array *)

(** C3: the macros give width 16, height 24 and pixel size 1, and the length
    macro evaluates to width * height * pixel size, which is 384. *)
Theorem dimension_constants :
  IMAGE_WIDTH = 16 /\ IMAGE_HEIGHT = 24 /\ PIXEL_SIZE = 1 /\
  IMAGE_LENGTH = IMAGE_WIDTH * IMAGE_HEIGHT * PIXEL_SIZE /\
  IMAGE_LENGTH = 384.
Proof. repeat split. Qed.

(** C1: the array [image] has exactly 384 elements, this count is the value
    of [IMAGE_LENGTH], and it is also the number of initialiser clauses. *)
Theorem image_has_384_elements :
  length image = 384%nat /\
  Z.of_nat (length image) = IMAGE_LENGTH /\
  length image_initializer = length image.
Proof.
  split; [reflexivity|]. split; [exact image_length_Z|].
  now rewrite image_eq_initializer.
Qed.

(** C6: every element of [image] lies in the range [0, 255]. *)
Theorem image_elements_in_byte_range :
  Forall (fun v => 0 <= v <= 255) image.
Proof. exact image_fits. Qed.

(** * Individual pixels *)

(** C4: reading [image] at flat index 7, which is row 0 and column 7,
    returns [0x95]. *)
Theorem read_row0_col7 :
  flat_index 0 7 = 7 /\ read image 7 = Some (0x95, image).
Proof. split; reflexivity. Qed.

(** C2, as stated, fails: the read at flat index 128 (row 8, column 0) does
    not return [0xfb]. *)
Lemma read_row8_col0_is_not_fb :
  ~ (exists s', read image (flat_index 8 0) = Some (0xfb, s')).
Proof. intros [s' H]. vm_compute in H. discriminate H. Qed.

(** C2, amended: flat index 128 is row 8, column 0, and the read there
    returns [0xff]; the value [0xfb] of row 8 is at column 2, flat index
    130. *)
Theorem read_row8 :
  flat_index 8 0 = 128 /\ read image 128 = Some (0xff, image) /\
  flat_index 8 2 = 130 /\ read image 130 = Some (0xfb, image).
Proof. repeat split. Qed.

(** C5, as stated, fails: the read of the last element, flat index 383
    (row 23, column 15), does not return [0xb1]. *)
Lemma read_last_is_not_b1 :
  ~ (exists s', read image (flat_index 23 15) = Some (0xb1, s')).
Proof. intros [s' H]. vm_compute in H. discriminate H. Qed.

(** C5, amended: flat index 383 is row 23, column 15, the last element, and
    the read there returns [0xff]; the value [0xb1] of row 23 is at column
    8, flat index 376. *)
Theorem read_row23 :
  flat_index 23 15 = 383 /\ IMAGE_LENGTH - 1 = 383 /\
  read image 383 = Some (0xff, image) /\
  flat_index 23 8 = 376 /\ read image 376 = Some (0xb1, image).
Proof. repeat split. Qed.

(** * Reading in range *)

(** C8: for every flat index [i] with [0 <= i < 384] the read succeeds,
    leaves the state as it was, and returns the byte stored for that
    position, which is the [i]-th initialiser clause and a value of
    [uint8_t]; [i] is [row * width + col] for a row in [0, height) and a
    column in [0, width), and the byte is the [col]-th of that row. *)
Theorem read_in_range_succeeds (i : Z) :
  0 <= i < IMAGE_LENGTH ->
  exists v,
    read image i = Some (v, image) /\
    nth_error image_initializer (Z.to_nat i) = Some v /\
    0 <= v <= UINT8_MAX /\
    exists row col,
      0 <= row < IMAGE_HEIGHT /\ 0 <= col < IMAGE_WIDTH /\
      i = flat_index row col /\
      nth_error (image_row image row) (Z.to_nat col) = Some v.
Proof.
  intros Hi.
  assert (Hi' : 0 <= i < Z.of_nat (length image))
    by (rewrite image_length_Z; exact Hi).
  destruct (read_in_range image i Hi') as [v [Hread Hnth]].
  exists v. split; [exact Hread|].
  split; [rewrite <- image_eq_initializer; exact Hnth|].
  split.
  { pose proof image_fits as Hfit. rewrite Forall_forall in Hfit.
    apply Hfit. eapply nth_error_In. exact Hnth. }
  destruct (flat_index_div_mod i Hi) as (Hrow & Hcol & Hflat).
  exists (i / IMAGE_WIDTH), (i mod IMAGE_WIDTH).
  split; [exact Hrow|]. split; [exact Hcol|]. split; [exact Hflat|].
  rewrite image_row_nth; [|lia|exact Hcol].
  rewrite <- Hflat. exact Hnth.
Qed.

Lemma read_in_range_succeeds_witness :
  0 <= 130 < IMAGE_LENGTH /\
  exists v,
    read image 130 = Some (v, image) /\
    nth_error image_initializer (Z.to_nat 130) = Some v /\
    0 <= v <= UINT8_MAX /\
    exists row col,
      0 <= row < IMAGE_HEIGHT /\ 0 <= col < IMAGE_WIDTH /\
      130 = flat_index row col /\
      nth_error (image_row image row) (Z.to_nat col) = Some v.
Proof.
  split; [rewrite IMAGE_LENGTH_eq; lia|].
  apply (read_in_range_succeeds 130). rewrite IMAGE_LENGTH_eq. lia.
Defined.

(** C7, as stated, fails: [image] is not immutable after its definition.
    The read at index 7 returns [0x95]; the assignment [image[7] = 0] is
    accepted, and the read at index 7 after it returns [0]. *)
Lemma write_changes_reread :
  exists s1 s2 s3 v,
    read image 7 = Some (0x95, s1) /\
    write s1 7 0 = Some s2 /\
    read s2 7 = Some (v, s3) /\
    v <> 0x95.
Proof.
  exists image, (update image 7 0), (update image 7 0), 0.
  repeat split. discriminate.
Qed.

(** C7, amended: for every in-range flat index [i], two reads at [i] return
    the same value when no write to [i] happens between them, whatever
    in-range reads and in-range writes to other elements do; when only
    reads happen the whole array is as it was defined.  The array is not
    immutable: a write at [i] is accepted and the next read at [i] returns
    the byte written. *)
Theorem reread_same_value_unless_written (i w : Z) (acs : list access) :
  0 <= i < IMAGE_LENGTH ->
  Forall (fun a => 0 <= access_index a < IMAGE_LENGTH) acs ->
  Forall (fun a => writes_to i a = false) acs ->
  exists v vs s1 s2 s3 s4,
    read image i = Some (v, s1) /\
    run s1 acs = Some (vs, s2) /\
    read s2 i = Some (v, s3) /\
    (forallb is_read acs = true -> s3 = image) /\
    write s3 i w = Some s4 /\
    read s4 i = Some (w mod 256, s4).
Proof.
  intros Hi Hrange Hframe.
  assert (Hi' : 0 <= i < Z.of_nat (length image))
    by (rewrite image_length_Z; exact Hi).
  assert (Hrange' :
    Forall (fun a => 0 <= access_index a < Z.of_nat (length image)) acs).
  { eapply Forall_impl; [|exact Hrange].
    intros a Ha. rewrite image_length_Z. exact Ha. }
  destruct (read_in_range image i Hi') as [v [Hread Hnth]].
  destruct (run_frame i v acs image ltac:(lia) Hnth Hrange' Hframe)
    as (vs & s2 & Hrun & Hlen & Hkeep & Hsame).
  assert (Hi2 : 0 <= i < Z.of_nat (length s2)) by (rewrite Hlen; exact Hi').
  exists v, vs, image, s2, s2, (update s2 (Z.to_nat i) (w mod 256)).
  split; [exact Hread|]. split; [exact Hrun|].
  split; [exact (read_at s2 i v Hi2 Hkeep)|].
  split; [exact Hsame|].
  split; [exact (write_in_range s2 i w Hi2)|].
  apply read_at.
  - rewrite update_length. exact Hi2.
  - apply nth_error_update_same. lia.
Qed.

Lemma reread_same_value_unless_written_witness :
  0 <= 7 < IMAGE_LENGTH /\
  Forall (fun a => 0 <= access_index a < IMAGE_LENGTH)
    [Read 128; Write 8 300; Read 8] /\
  Forall (fun a => writes_to 7 a = false) [Read 128; Write 8 300; Read 8] /\
  exists v vs s1 s2 s3 s4,
    read image 7 = Some (v, s1) /\
    run s1 [Read 128; Write 8 300; Read 8] = Some (vs, s2) /\
    read s2 7 = Some (v, s3) /\
    (forallb is_read [Read 128; Write 8 300; Read 8] = true -> s3 = image) /\
    write s3 7 511 = Some s4 /\
    read s4 7 = Some (511 mod 256, s4).
Proof.
  assert (H7 : 0 <= 7 < IMAGE_LENGTH) by (rewrite IMAGE_LENGTH_eq; lia).
  assert (Hrange : Forall (fun a => 0 <= access_index a < IMAGE_LENGTH)
                     [Read 128; Write 8 300; Read 8])
    by (repeat apply Forall_cons; try apply Forall_nil;
        rewrite IMAGE_LENGTH_eq; cbn [access_index]; lia).
  assert (Hframe : Forall (fun a => writes_to 7 a = false)
                     [Read 128; Write 8 300; Read 8])
    by (repeat apply Forall_cons; try apply Forall_nil; reflexivity).
  split; [exact H7|]. split; [exact Hrange|]. split; [exact Hframe|].
  exact (reread_same_value_unless_written 7 511 _ H7 Hrange Hframe).
Defined.

(** * Regularities of the pixel data *)

(** C9: every element of [image] is at least [0x89], so all values lie in
    [0x89, 0xff], and [0x89] is the value at flat index 270. *)
Theorem image_elements_at_least_89 :
  Forall (fun v => 0x89 <= v <= 0xff) image /\
  read image 270 = Some (0x89, image).
Proof.
  split; [|reflexivity].
  assert (Hall : forallb (fun v => (0x89 <=? v) && (v <=? 0xff)) image = true)
    by reflexivity.
  rewrite forallb_forall in Hall.
  apply Forall_forall. intros v Hv.
  specialize (Hall v Hv). apply andb_true_iff in Hall as [Hlo Hhi].
  apply Z.leb_le in Hlo. apply Z.leb_le in Hhi. split; assumption.
Qed.

(** C10: for every row [r] in [0, 24) the first and the last pixel of the
    row, flat indices [16 * r] and [16 * r + 15], both read as [0xff]. *)
Theorem edge_columns_are_ff (r : Z) :
  0 <= r < IMAGE_HEIGHT ->
  read image (16 * r) = Some (0xff, image) /\
  read image (16 * r + 15) = Some (0xff, image).
Proof.
  intros Hr.
  assert (Hedge : edge_is_ff r = true).
  { apply (forallb_below edge_is_ff 24); [reflexivity|].
    unfold IMAGE_HEIGHT in Hr. lia. }
  unfold edge_is_ff in Hedge.
  destruct (read image (16 * r)) as [[a sa]|] eqn:Ha; [|discriminate].
  destruct (read image (16 * r + 15)) as [[b sb]|] eqn:Hb; [|discriminate].
  apply andb_true_iff in Hedge as [Ea Eb].
  apply Z.eqb_eq in Ea. apply Z.eqb_eq in Eb. subst a b.
  apply read_inv in Ha as [-> _]. apply read_inv in Hb as [-> _].
  split; reflexivity.
Qed.

Lemma edge_columns_are_ff_witness :
  0 <= 16 < IMAGE_HEIGHT /\
  read image (16 * 16) = Some (0xff, image) /\
  read image (16 * 16 + 15) = Some (0xff, image).
Proof.
  assert (Hr : 0 <= 16 < IMAGE_HEIGHT) by (unfold IMAGE_HEIGHT; lia).
  split; [exact Hr|]. exact (edge_columns_are_ff 16 Hr).
Defined.

(** * The header in a translation unit *)

Lemma checked_ok (int_max z : Z) :
  - int_max - 1 <= z <= int_max -> checked int_max z = Some z.
Proof.
  intros Hz. unfold checked.
  assert (Hb : (- int_max - 1 <=? z) && (z <=? int_max) = true).
  { apply andb_true_iff. split; apply Z.leb_le; lia. }
  now rewrite Hb.
Qed.

Lemma checked_overflow (int_max z : Z) :
  int_max < z -> checked int_max z = None.
Proof.
  intros Hz. unfold checked.
  assert (Hb : (z <=? int_max) = false) by (apply Z.leb_gt; lia).
  now rewrite Hb, andb_false_r.
Qed.

Lemma is_int_literal_ok (int_max n : Z) :
  0 <= n <= int_max -> is_int_literal int_max n = true.
Proof.
  intros Hn. unfold is_int_literal.
  apply andb_true_iff. split; apply Z.leb_le; lia.
Qed.

Lemma nonzero_ok (n : Z) : 0 < n -> negb (n =? 0) = true.
Proof.
  intros Hn. apply negb_true_iff. apply Z.eqb_neq. lia.
Qed.

Lemma checked_again (int_max z : Z) :
  match checked int_max z with
  | Some t => checked int_max (0 + t)
  | None => None
  end = checked int_max z.
Proof.
  unfold checked. destruct (_ && _) eqn:Hb; [|reflexivity].
  cbn [Z.add]. now rewrite Hb.
Qed.

(** One step of evaluation whose side conditions [lia] settles. *)
Ltac eval_step :=
  cbn [eval eval_rest];
  repeat first
    [ rewrite is_int_literal_ok by lia
    | rewrite nonzero_ok by lia
    | rewrite checked_ok by lia ];
  cbn [andb].

Lemma IMAGE_LENGTH_tokens (pre post : list token) :
  preprocess elka_macros (pre ++ TId "IMAGE_LENGTH" :: post) =
  preprocess elka_macros pre ++
  [TNum 16; TStar; TNum 24; TStar; TNum 1] ++ preprocess elka_macros post.
Proof.
  unfold preprocess. cbn [expand]. now rewrite flat_map_app.
Qed.

Lemma expand_number (fuel : nat) (m : macro_table) (hide : list string)
    (n : Z) :
  expand fuel m hide [TNum n] = [TNum n].
Proof. destruct fuel; reflexivity. Qed.

(** Replacement with the header's macros nests two deep at most: every
    rescanning budget from 2 on yields the same tokens, so the budget
    [preprocess] uses never cuts a replacement short. *)
Lemma expand_elka_macros_enough (fuel : nat) (ts : list token) :
  (2 <= fuel)%nat ->
  expand fuel elka_macros [] ts = expand 2 elka_macros [] ts.
Proof.
  intros Hfuel. destruct fuel as [|[|fuel]]; try lia.
  cbn [expand]. apply flat_map_ext. intros [n|x| | | | | ]; try reflexivity.
  cbn [existsb]. change elka_macros with
    [("IMAGE_LENGTH"%string,
      [TId "IMAGE_WIDTH"; TStar; TId "IMAGE_HEIGHT"; TStar;
       TId "PIXEL_SIZE"]);
     ("PIXEL_SIZE"%string, [TNum 1]);
     ("IMAGE_WIDTH"%string, [TNum 16]);
     ("IMAGE_HEIGHT"%string, [TNum 24]);
     ("IMAGE"%string, @nil token)].
  cbn [lookup].
  destruct (String.eqb x "IMAGE_LENGTH").
  { cbn. now rewrite !expand_number. }
  destruct (String.eqb x "PIXEL_SIZE"); [reflexivity|].
  destruct (String.eqb x "IMAGE_WIDTH"); [reflexivity|].
  destruct (String.eqb x "IMAGE_HEIGHT"); [reflexivity|].
  destruct (String.eqb x "IMAGE"); reflexivity.
Qed.


Lemma lookup_cons_other {A : Type} (x y : string) (a b : A)
    (m : list (string * A)) :
  lookup x m = Some a -> lookup y m = None ->
  lookup x ((y, b) :: m) = Some a.
Proof.
  intros Hx Hy. cbn [lookup].
  destruct (String.eqb_spec x y) as [->|_]; [congruence | exact Hx].
Qed.

(** No line removes or changes a macro that is defined. *)
Lemma step_keeps_macros (int_max : Z) (l : line) (u u' : tu)
    (conds conds' : list bool) (x : string) (body : list token) :
  step int_max l (u, conds) = Some (u', conds') ->
  lookup x (tu_macros u) = Some body ->
  lookup x (tu_macros u') = Some body.
Proof.
  intros Hstep Hx. unfold step in Hstep.
  destruct l as [y | y b | h | elt y bound clauses | ].
  - injection Hstep as <- _. exact Hx.
  - destruct (active conds); [|injection Hstep as <- _; exact Hx].
    destruct (lookup y (tu_macros u)) as [old|] eqn:Hy.
    + destruct (tokens_eqb old b); [|discriminate].
      injection Hstep as <- _. exact Hx.
    + injection Hstep as <- _. cbn [tu_macros].
      now apply lookup_cons_other.
  - destruct (active conds); injection Hstep as <- _; exact Hx.
  - destruct (active conds); [|injection Hstep as <- _; exact Hx].
    destruct (preprocess (tu_macros u) [TId elt]) as [|[|elt'| | | | |] [|]];
      try discriminate.
    destruct (preprocess (tu_macros u) [TId y]) as [|[|y'| | | | |] [|]];
      try discriminate.
    destruct (String.eqb elt' "uint8_t"); [|discriminate].
    destruct (lookup y' (tu_objects u)); [discriminate|].
    destruct (eval _ _) as [n|]; [|discriminate].
    destruct (0 <? n); [|discriminate].
    destruct (aggregate_init n clauses); [|discriminate].
    injection Hstep as <- _. exact Hx.
  - destruct conds; [discriminate|].
    injection Hstep as <- _. exact Hx.
Qed.

Lemma run_lines_keeps_macros (int_max : Z) (ls : list line) (x : string)
    (body : list token) :
  forall (u u' : tu) (conds conds' : list bool),
    run_lines int_max ls (u, conds) = Some (u', conds') ->
    lookup x (tu_macros u) = Some body ->
    lookup x (tu_macros u') = Some body.
Proof.
  induction ls as [|l ls IH]; intros u u' conds conds' Hrun Hx.
  - injection Hrun as <- _. exact Hx.
  - cbn [run_lines] in Hrun.
    destruct (step int_max l (u, conds)) as [[u1 conds1]|] eqn:Hstep;
      [|discriminate].
    apply (IH u1 u' conds1 conds' Hrun).
    exact (step_keeps_macros _ _ _ _ _ _ _ _ Hstep Hx).
Qed.

(** With the guard macro defined, all text of the header is skipped. *)
Lemma include_when_guard_defined (int_max : Z) (u : tu) (body : list token) :
  lookup "IMAGE" (tu_macros u) = Some body ->
  include_header int_max elka_h u = Some u.
Proof.
  intros Hguard. unfold include_header, elka_h.
  cbn [run_lines step]. rewrite Hguard. reflexivity.
Qed.

Lemma run_lines_app (int_max : Z) (ls1 ls2 : list line) :
  forall s,
    run_lines int_max (ls1 ++ ls2) s =
    match run_lines int_max ls1 s with
    | Some s' => run_lines int_max ls2 s'
    | None => None
    end.
Proof.
  induction ls1 as [|l ls1 IH]; intros s; cbn [run_lines app].
  - reflexivity.
  - destruct (step int_max l s) as [s'|]; [apply IH | reflexivity].
Qed.

(** A name that is not a macro is left as it is. *)
Lemma preprocess_not_a_macro (m : macro_table) (x : string) :
  lookup x m = None -> preprocess m [TId x] = [TId x].
Proof.
  intros Hx. unfold preprocess. cbn [expand flat_map existsb].
  now rewrite Hx.
Qed.




(** X2: including the header a second time changes nothing: whenever an
    inclusion is accepted, a further inclusion in the resulting
    translation unit is accepted too and leaves it as it is, so [image] is
    defined once. *)
Theorem include_guard_idempotent (int_max : Z) (u u' : tu) :
  include_header int_max elka_h u = Some u' ->
  include_header int_max elka_h u' = Some u'.
Proof.
  intros Hinc.
  destruct (lookup "IMAGE" (tu_macros u)) as [body|] eqn:Hguard.
  - rewrite (include_when_guard_defined int_max u body Hguard) in Hinc.
    injection Hinc as <-.
    exact (include_when_guard_defined int_max u body Hguard).
  - apply (include_when_guard_defined int_max u' []).
    unfold include_header in Hinc.
    change elka_h with (firstn 2 elka_h ++ skipn 2 elka_h) in Hinc.
    rewrite run_lines_app in Hinc.
    cbn [firstn elka_h run_lines step] in Hinc.
    rewrite Hguard in Hinc. cbn [active forallb andb] in Hinc.
    destruct (run_lines int_max _ _) as [[u2 conds2]|] eqn:Hrest;
      [|discriminate].
    destruct conds2; [|discriminate]. injection Hinc as ->.
    apply (run_lines_keeps_macros _ _ _ _ _ _ _ _ Hrest).
    cbn [tu_macros lookup]. reflexivity.
Qed.

Lemma include_guard_idempotent_witness :
  include_header 32767 elka_h empty_tu =
    Some {| tu_macros := elka_macros;
            tu_headers := ["cstdint"%string];
            tu_objects := [("image"%string, image)] |} /\
  include_header 32767 elka_h
    {| tu_macros := elka_macros;
       tu_headers := ["cstdint"%string];
       tu_objects := [("image"%string, image)] |} =
    Some {| tu_macros := elka_macros;
            tu_headers := ["cstdint"%string];
            tu_objects := [("image"%string, image)] |}.
Proof.
  assert (H : include_header 32767 elka_h empty_tu =
    Some {| tu_macros := elka_macros;
            tu_headers := ["cstdint"%string];
            tu_objects := [("image"%string, image)] |}) by reflexivity.
  split; [exact H|]. exact (include_guard_idempotent _ _ _ H).
Defined.

(** X3: a translation unit that already defines a macro named [IMAGE], with
    whatever body, gets nothing from the header: the inclusion is accepted
    and defines neither the dimension macros nor [image]. *)
Theorem guard_name_already_defined (int_max : Z) (u : tu)
    (body : list token) :
  lookup "IMAGE" (tu_macros u) = Some body ->
  exists u',
    include_header int_max elka_h u = Some u' /\
    lookup "image" (tu_objects u') = lookup "image" (tu_objects u) /\
    lookup "IMAGE_LENGTH" (tu_macros u') =
      lookup "IMAGE_LENGTH" (tu_macros u) /\
    u' = u.
Proof.
  intros Hguard. exists u.
  rewrite (include_when_guard_defined int_max u body Hguard). auto.
Qed.

Lemma guard_name_already_defined_witness :
  lookup "IMAGE" [("IMAGE"%string, [TNum 1])] = Some [TNum 1] /\
  exists u',
    include_header 32767 elka_h
      {| tu_macros := [("IMAGE"%string, [TNum 1])];
         tu_headers := []; tu_objects := [] |} = Some u' /\
    lookup "image" (tu_objects u') = None /\
    lookup "IMAGE_LENGTH" (tu_macros u') = None /\
    u' = {| tu_macros := [("IMAGE"%string, [TNum 1])];
            tu_headers := []; tu_objects := [] |}.
Proof.
  split; [reflexivity|].
  exact (guard_name_already_defined 32767
           {| tu_macros := [("IMAGE"%string, [TNum 1])];
              tu_headers := []; tu_objects := [] |} [TNum 1] eq_refl).
Defined.

(** * [IMAGE_LENGTH] inside larger expressions

    The body of [IMAGE_LENGTH] has no parentheses around it, so its tokens
    take part in the expression that surrounds the macro's name. *)

(** X4: with [IMAGE_LENGTH] as the left operand of one binary operator and
    a literal [k] on the right, the expression has the value of 384 under
    that operator, whenever that value is an [int]. *)
Theorem IMAGE_LENGTH_left_operand (int_max k : Z) :
  32767 <= int_max -> 0 < k <= int_max ->
  eval int_max (preprocess elka_macros [TId "IMAGE_LENGTH"; TStar; TNum k])
    = checked int_max (IMAGE_LENGTH * k) /\
  eval int_max (preprocess elka_macros [TId "IMAGE_LENGTH"; TSlash; TNum k])
    = Some (IMAGE_LENGTH / k) /\
  eval int_max (preprocess elka_macros [TId "IMAGE_LENGTH"; TPercent; TNum k])
    = Some (IMAGE_LENGTH mod k) /\
  eval int_max (preprocess elka_macros [TId "IMAGE_LENGTH"; TPlus; TNum k])
    = checked int_max (IMAGE_LENGTH + k) /\
  eval int_max (preprocess elka_macros [TId "IMAGE_LENGTH"; TMinus; TNum k])
    = Some (IMAGE_LENGTH - k).
Proof.
  intros Him Hk. rewrite IMAGE_LENGTH_eq.
  assert (Hdiv : 0 <= 384 / k <= 384).
  { split; [apply Z.div_pos; lia | apply Z.div_le_upper_bound; nia]. }
  pose proof (Z.mod_pos_bound 384 k ltac:(lia)) as Hmod.
  repeat split.
  - change (preprocess elka_macros [TId "IMAGE_LENGTH"; TStar; TNum k])
      with [TNum 16; TStar; TNum 24; TStar; TNum 1; TStar; TNum k].
    do 3 eval_step. apply checked_again.
  - change (preprocess elka_macros [TId "IMAGE_LENGTH"; TSlash; TNum k])
      with [TNum 16; TStar; TNum 24; TStar; TNum 1; TSlash; TNum k].
    do 3 eval_step.
    rewrite Z.quot_div_nonneg by lia.
    change (16 * 24 * 1) with 384. eval_step. reflexivity.
  - change (preprocess elka_macros [TId "IMAGE_LENGTH"; TPercent; TNum k])
      with [TNum 16; TStar; TNum 24; TStar; TNum 1; TPercent; TNum k].
    do 3 eval_step.
    rewrite Z.quot_div_nonneg, Z.rem_mod_nonneg by lia.
    change (16 * 24 * 1) with 384. eval_step. reflexivity.
  - change (preprocess elka_macros [TId "IMAGE_LENGTH"; TPlus; TNum k])
      with [TNum 16; TStar; TNum 24; TStar; TNum 1; TPlus; TNum k].
    do 4 eval_step. reflexivity.
  - change (preprocess elka_macros [TId "IMAGE_LENGTH"; TMinus; TNum k])
      with [TNum 16; TStar; TNum 24; TStar; TNum 1; TMinus; TNum k].
    do 5 eval_step. reflexivity.
Qed.

Lemma IMAGE_LENGTH_left_operand_witness :
  32767 <= 32767 /\ 0 < 5 <= 32767 /\
  eval 32767 (preprocess elka_macros [TId "IMAGE_LENGTH"; TStar; TNum 5])
    = checked 32767 (IMAGE_LENGTH * 5) /\
  eval 32767 (preprocess elka_macros [TId "IMAGE_LENGTH"; TSlash; TNum 5])
    = Some (IMAGE_LENGTH / 5) /\
  eval 32767 (preprocess elka_macros [TId "IMAGE_LENGTH"; TPercent; TNum 5])
    = Some (IMAGE_LENGTH mod 5) /\
  eval 32767 (preprocess elka_macros [TId "IMAGE_LENGTH"; TPlus; TNum 5])
    = checked 32767 (IMAGE_LENGTH + 5) /\
  eval 32767 (preprocess elka_macros [TId "IMAGE_LENGTH"; TMinus; TNum 5])
    = Some (IMAGE_LENGTH - 5).
Proof.
  split; [lia|]. split; [lia|].
  apply (IMAGE_LENGTH_left_operand 32767 5); lia.
Defined.

(** X5: with a literal [k] on the left and [IMAGE_LENGTH] as the right
    operand of [*], [+] or [-], the expression has the value of [k] and 384
    under that operator, whenever that value is an [int]. *)
Theorem IMAGE_LENGTH_right_operand (int_max k : Z) :
  32767 <= int_max -> 0 <= k <= int_max ->
  eval int_max (preprocess elka_macros [TNum k; TStar; TId "IMAGE_LENGTH"])
    = checked int_max (k * IMAGE_LENGTH) /\
  eval int_max (preprocess elka_macros [TNum k; TPlus; TId "IMAGE_LENGTH"])
    = checked int_max (k + IMAGE_LENGTH) /\
  eval int_max (preprocess elka_macros [TNum k; TMinus; TId "IMAGE_LENGTH"])
    = Some (k - IMAGE_LENGTH).
Proof.
  intros Him Hk. rewrite IMAGE_LENGTH_eq. repeat split.
  - change (preprocess elka_macros [TNum k; TStar; TId "IMAGE_LENGTH"])
      with [TNum k; TStar; TNum 16; TStar; TNum 24; TStar; TNum 1].
    destruct (Z_le_gt_dec (k * 384) int_max) as [Hfit|Hover].
    + rewrite (checked_ok int_max (k * 384)) by lia.
      do 5 eval_step. f_equal. lia.
    + rewrite (checked_overflow int_max (k * 384)) by lia.
      eval_step.
      destruct (Z_le_gt_dec (k * 16) int_max) as [Hfit16|Hover16].
      * eval_step.
        rewrite (checked_overflow int_max (k * 16 * 24)) by lia.
        reflexivity.
      * rewrite (checked_overflow int_max (k * 16)) by lia. reflexivity.
  - change (preprocess elka_macros [TNum k; TPlus; TId "IMAGE_LENGTH"])
      with [TNum k; TPlus; TNum 16; TStar; TNum 24; TStar; TNum 1].
    do 4 eval_step. reflexivity.
  - change (preprocess elka_macros [TNum k; TMinus; TId "IMAGE_LENGTH"])
      with [TNum k; TMinus; TNum 16; TStar; TNum 24; TStar; TNum 1].
    do 5 eval_step. reflexivity.
Qed.

Lemma IMAGE_LENGTH_right_operand_witness :
  32767 <= 32767 /\ 0 <= 100 <= 32767 /\
  eval 32767 (preprocess elka_macros [TNum 100; TStar; TId "IMAGE_LENGTH"])
    = checked 32767 (100 * IMAGE_LENGTH) /\
  eval 32767 (preprocess elka_macros [TNum 100; TPlus; TId "IMAGE_LENGTH"])
    = checked 32767 (100 + IMAGE_LENGTH) /\
  eval 32767 (preprocess elka_macros [TNum 100; TMinus; TId "IMAGE_LENGTH"])
    = Some (100 - IMAGE_LENGTH).
Proof.
  split; [lia|]. split; [lia|].
  apply (IMAGE_LENGTH_right_operand 32767 100); lia.
Defined.

(** X6: [k / IMAGE_LENGTH] is read as [k / 16 * 24 * 1]: its value is the
    quotient of [k] by the width, times the height, when that is an [int],
    and undefined otherwise.  For every [k] from 16 on this is larger than
    the quotient of [k] by 384. *)
Theorem divide_by_IMAGE_LENGTH (int_max k : Z) :
  32767 <= int_max -> 0 <= k <= int_max ->
  eval int_max (preprocess elka_macros [TNum k; TSlash; TId "IMAGE_LENGTH"])
    = checked int_max (k / IMAGE_WIDTH * IMAGE_HEIGHT) /\
  (16 <= k -> k / IMAGE_LENGTH < k / IMAGE_WIDTH * IMAGE_HEIGHT).
Proof.
  intros Him Hk.
  rewrite IMAGE_LENGTH_eq. unfold IMAGE_WIDTH, IMAGE_HEIGHT.
  split.
  2:{ intros Hk16.
      assert (Hq : 1 <= k / 16) by (apply Z.div_le_lower_bound; lia).
      replace (k / 384) with (k / 16 / 24)
        by (rewrite Z.div_div by lia; reflexivity).
      pose proof (Z.mul_div_le (k / 16) 24 ltac:(lia)) as Hle.
      lia. }
  change (preprocess elka_macros [TNum k; TSlash; TId "IMAGE_LENGTH"])
    with [TNum k; TSlash; TNum 16; TStar; TNum 24; TStar; TNum 1].
  assert (Hq : 0 <= k / 16 <= k).
  { split; [apply Z.div_pos; lia | apply Z.div_le_upper_bound; lia]. }
  eval_step. rewrite Z.quot_div_nonneg by lia. eval_step.
  destruct (Z_le_gt_dec (k / 16 * 24) int_max) as [Hfit|Hover].
  - do 3 eval_step. f_equal. lia.
  - now rewrite !(checked_overflow int_max (k / 16 * 24)) by lia.
Qed.

Lemma divide_by_IMAGE_LENGTH_witness :
  32767 <= 32767 /\ 0 <= 768 <= 32767 /\
  eval 32767 (preprocess elka_macros [TNum 768; TSlash; TId "IMAGE_LENGTH"])
    = checked 32767 (768 / IMAGE_WIDTH * IMAGE_HEIGHT) /\
  (16 <= 768 -> 768 / IMAGE_LENGTH < 768 / IMAGE_WIDTH * IMAGE_HEIGHT).
Proof.
  split; [lia|]. split; [lia|].
  apply (divide_by_IMAGE_LENGTH 32767 768); lia.
Defined.

(** X7: [k % IMAGE_LENGTH] is read as [k % 16 * 24 * 1]: its value is the
    remainder of [k] by the width, times the height.  That is a multiple of
    24 below 384, and for no [k] from 1 to 383 is it [k] itself, which the
    remainder by 384 would be. *)
Theorem remainder_by_IMAGE_LENGTH (int_max k : Z) :
  32767 <= int_max -> 0 <= k <= int_max ->
  eval int_max (preprocess elka_macros [TNum k; TPercent; TId "IMAGE_LENGTH"])
    = Some (k mod IMAGE_WIDTH * IMAGE_HEIGHT) /\
  0 <= k mod IMAGE_WIDTH * IMAGE_HEIGHT < IMAGE_LENGTH /\
  (0 < k < IMAGE_LENGTH ->
   k mod IMAGE_LENGTH = k /\ k mod IMAGE_WIDTH * IMAGE_HEIGHT <> k).
Proof.
  intros Him Hk.
  rewrite IMAGE_LENGTH_eq. unfold IMAGE_WIDTH, IMAGE_HEIGHT.
  assert (Hq : 0 <= k / 16 <= k).
  { split; [apply Z.div_pos; lia | apply Z.div_le_upper_bound; lia]. }
  pose proof (Z.mod_pos_bound k 16 ltac:(lia)) as Hm.
  pose proof (Z.div_mod k 16 ltac:(lia)) as Hdm.
  split; [|split; [lia|]].
  - change (preprocess elka_macros [TNum k; TPercent; TId "IMAGE_LENGTH"])
      with [TNum k; TPercent; TNum 16; TStar; TNum 24; TStar; TNum 1].
    eval_step.
    rewrite Z.quot_div_nonneg, Z.rem_mod_nonneg by lia.
    do 4 eval_step. f_equal. lia.
  - intros Hk384. split; [apply Z.mod_small; lia | lia].
Qed.

Lemma remainder_by_IMAGE_LENGTH_witness :
  32767 <= 32767 /\ 0 <= 100 <= 32767 /\
  eval 32767
    (preprocess elka_macros [TNum 100; TPercent; TId "IMAGE_LENGTH"])
    = Some (100 mod IMAGE_WIDTH * IMAGE_HEIGHT) /\
  0 <= 100 mod IMAGE_WIDTH * IMAGE_HEIGHT < IMAGE_LENGTH /\
  (0 < 100 < IMAGE_LENGTH ->
   100 mod IMAGE_LENGTH = 100 /\ 100 mod IMAGE_WIDTH * IMAGE_HEIGHT <> 100).
Proof.
  split; [lia|]. split; [lia|].
  apply (remainder_by_IMAGE_LENGTH 32767 100); lia.
Defined.

(** * Names the header takes *)

Lemma step_define_inv (int_max : Z) (x : string) (body : list token)
    (u u' : tu) (conds conds' : list bool) :
  step int_max (Define x body) (u, conds) = Some (u', conds') ->
  tu_objects u' = tu_objects u /\ conds' = conds /\
  forall y, y <> x -> lookup y (tu_macros u') = lookup y (tu_macros u).
Proof.
  cbn [step]. destruct (active conds).
  - destruct (lookup x (tu_macros u)) as [old|].
    + destruct (tokens_eqb old body); [|discriminate].
      intros [= <- <-]. auto.
    + intros [= <- <-]. cbn [tu_objects tu_macros lookup].
      repeat split. intros y Hy.
      destruct (String.eqb_spec y x); [contradiction | reflexivity].
  - intros [= <- <-]. auto.
Qed.

Lemma step_include_inv (int_max : Z) (h : string) (u u' : tu)
    (conds conds' : list bool) :
  step int_max (Include h) (u, conds) = Some (u', conds') ->
  tu_objects u' = tu_objects u /\ conds' = conds /\
  tu_macros u' = tu_macros u.
Proof.
  cbn [step]. destruct (active conds); intros [= <- <-]; auto.
Qed.

(** X8: in a translation unit that has not seen the guard macro, where
    neither [uint8_t] nor [image] is the name of a macro, and that already
    defines an object named [image], the header is rejected: its own
    definition of [image] would be a second one. *)
Theorem image_name_already_defined (int_max : Z) (u : tu) (a : list Z) :
  lookup "IMAGE" (tu_macros u) = None ->
  lookup "uint8_t" (tu_macros u) = None ->
  lookup "image" (tu_macros u) = None ->
  lookup "image" (tu_objects u) = Some a ->
  include_header int_max elka_h u = None.
Proof.
  intros Hguard Htype Hname Hobj. unfold include_header, elka_h.
  cbn [run_lines].
  change (step int_max (Ifndef "IMAGE") (u, []))
    with (Some (u, [match lookup "IMAGE" (tu_macros u) with
                    | None => true
                    | Some _ => false
                    end])).
  rewrite Hguard. cbv beta iota.
  destruct (step int_max (Define "IMAGE" []) _)
    as [[u1 c1]|] eqn:H1; [|reflexivity].
  apply step_define_inv in H1 as (Ho1 & -> & Hm1).
  destruct (step int_max (Include "cstdint") _)
    as [[u2 c2]|] eqn:H2; [|reflexivity].
  apply step_include_inv in H2 as (Ho2 & -> & Hm2).
  destruct (step int_max (Define "IMAGE_HEIGHT" _) _)
    as [[u3 c3]|] eqn:H3; [|reflexivity].
  apply step_define_inv in H3 as (Ho3 & -> & Hm3).
  destruct (step int_max (Define "IMAGE_WIDTH" _) _)
    as [[u4 c4]|] eqn:H4; [|reflexivity].
  apply step_define_inv in H4 as (Ho4 & -> & Hm4).
  destruct (step int_max (Define "PIXEL_SIZE" _) _)
    as [[u5 c5]|] eqn:H5; [|reflexivity].
  apply step_define_inv in H5 as (Ho5 & -> & Hm5).
  destruct (step int_max (Define "IMAGE_LENGTH" _) _)
    as [[u6 c6]|] eqn:H6; [|reflexivity].
  apply step_define_inv in H6 as (Ho6 & -> & Hm6).
  assert (Hkept : forall y,
            y <> "IMAGE"%string -> y <> "IMAGE_HEIGHT"%string ->
            y <> "IMAGE_WIDTH"%string -> y <> "PIXEL_SIZE"%string ->
            y <> "IMAGE_LENGTH"%string ->
            lookup y (tu_macros u6) = lookup y (tu_macros u)).
  { intros y N1 N2 N3 N4 N5.
    rewrite (Hm6 y N5), (Hm5 y N4), (Hm4 y N3), (Hm3 y N2), Hm2.
    exact (Hm1 y N1). }
  assert (Htype6 : lookup "uint8_t" (tu_macros u6) = None)
    by (rewrite Hkept; [exact Htype | discriminate ..]).
  assert (Hname6 : lookup "image" (tu_macros u6) = None)
    by (rewrite Hkept; [exact Hname | discriminate ..]).
  cbn [step active forallb andb].
  rewrite (preprocess_not_a_macro _ _ Htype6),
    (preprocess_not_a_macro _ _ Hname6).
  change (String.eqb "uint8_t" "uint8_t") with true. cbv iota.
  rewrite Ho6, Ho5, Ho4, Ho3, Ho2, Ho1, Hobj. reflexivity.
Qed.

Lemma image_name_already_defined_witness :
  lookup "IMAGE" (@nil (string * list token)) = None /\
  lookup "uint8_t" (@nil (string * list token)) = None /\
  lookup "image" (@nil (string * list token)) = None /\
  lookup "image" [("image"%string, [1; 2; 3])] = Some [1; 2; 3] /\
  include_header 32767 elka_h
    {| tu_macros := []; tu_headers := [];
       tu_objects := [("image"%string, [1; 2; 3])] |} = None.
Proof.
  repeat (split; [reflexivity|]).
  exact (image_name_already_defined 32767
           {| tu_macros := []; tu_headers := [];
              tu_objects := [("image"%string, [1; 2; 3])] |}
           [1; 2; 3] eq_refl eq_refl eq_refl eq_refl).
Defined.

(** * Reading out of range *)

(** X10: a read of [image] is defined exactly for the indices from 0 to
    [IMAGE_LENGTH - 1]; a negative index and any index from
    [IMAGE_LENGTH] on, the one past the end included, is not. *)
Theorem read_defined_iff_in_range (i : Z) :
  (exists v s', read image i = Some (v, s')) <-> 0 <= i < IMAGE_LENGTH.
Proof.
  rewrite <- image_length_Z. split.
  - intros (v & s' & Hread). now apply read_inv in Hread.
  - intros Hi. destruct (read_in_range image i Hi) as [v [Hread _]].
    now exists v, image.
Qed.

(** * Foreground and background *)

(** X11: the values of [image] fall into two separate bands, [0x89] to
    [0xb6] and [0xee] to [0xff]; no element has a value in between. *)
Theorem image_values_two_bands :
  Forall (fun v => 0x89 <= v <= 0xb6 \/ 0xee <= v <= 0xff) image.
Proof.
  assert (Hall : forallb (fun v => ((0x89 <=? v) && (v <=? 0xb6))
                            || ((0xee <=? v) && (v <=? 0xff))) image = true)
    by reflexivity.
  rewrite forallb_forall in Hall.
  apply Forall_forall. intros v Hv. specialize (Hall v Hv).
  apply orb_true_iff in Hall as [Hlow|Hhigh].
  - left. apply andb_true_iff in Hlow as [H1 H2].
    apply Z.leb_le in H1. apply Z.leb_le in H2. lia.
  - right. apply andb_true_iff in Hhigh as [H1 H2].
    apply Z.leb_le in H1. apply Z.leb_le in H2. lia.
Qed.

(** X12: in the last six rows, 18 to 23, the only pixels of the lower band
    are those of columns 7 and 8; every other pixel of these rows reads
    [0xff]. *)
Theorem last_rows_two_columns (r c : Z) :
  18 <= r < IMAGE_HEIGHT -> 0 <= c < IMAGE_WIDTH ->
  exists v,
    read image (16 * r + c) = Some (v, image) /\
    if (c =? 7) || (c =? 8) then 0x99 <= v <= 0xb6 else v = 0xff.
Proof.
  unfold IMAGE_HEIGHT, IMAGE_WIDTH. intros Hr Hc.
  pose (ok := fun r' c' : Z =>
    match read image (16 * (18 + r') + c') with
    | Some (v, _) =>
        if (c' =? 7) || (c' =? 8) then (0x99 <=? v) && (v <=? 0xb6)
        else v =? 0xff
    | None => false
    end).
  assert (Hall : forallb (fun r' => forallb (ok r') (map Z.of_nat (seq 0 16)))
                   (map Z.of_nat (seq 0 6)) = true) by reflexivity.
  pose proof (forallb_below _ 6 Hall (r - 18) ltac:(lia)) as Hrow.
  cbv beta in Hrow.
  pose proof (forallb_below _ 16 Hrow c ltac:(lia)) as Hok.
  unfold ok in Hok.
  replace (18 + (r - 18)) with r in Hok by lia.
  destruct (read image (16 * r + c)) as [[v s']|] eqn:Hread; [|discriminate].
  apply read_inv in Hread as [-> _].
  exists v. split; [reflexivity|].
  destruct ((c =? 7) || (c =? 8)).
  - apply andb_true_iff in Hok as [H1 H2].
    apply Z.leb_le in H1. apply Z.leb_le in H2. lia.
  - now apply Z.eqb_eq in Hok.
Qed.

Lemma last_rows_two_columns_witness :
  18 <= 20 < IMAGE_HEIGHT /\ 0 <= 8 < IMAGE_WIDTH /\
  exists v,
    read image (16 * 20 + 8) = Some (v, image) /\
    if (8 =? 7) || (8 =? 8) then 0x99 <= v <= 0xb6 else v = 0xff.
Proof.
  assert (Hr : 18 <= 20 < IMAGE_HEIGHT) by (unfold IMAGE_HEIGHT; lia).
  assert (Hc : 0 <= 8 < IMAGE_WIDTH) by (unfold IMAGE_WIDTH; lia).
  split; [exact Hr|]. split; [exact Hc|].
  exact (last_rows_two_columns 20 8 Hr Hc).
Defined.

End Elka.
